(** * State management in Vue: the utility modules

    A shallow embedding of the TypeScript utility modules of the repository
    (src/utils): the provide/inject wrapper, the two SWR hooks, the demo
    fetch functions and the exported login state.

    The modules are glue over three collaborators that are not part of the
    repository: Vue (provide/inject, ref/computed), nanoid and the SWR
    package.  Calls into them are events of a free monad; what the
    collaborators answer is left to a handler, so every statement below
    holds for whatever they answer, except where a model of Vue's component
    tree or of its reactive cells is spelled out and used. *)

From Stdlib Require Import ZArith List.
From Stdlib Require Import Floats.SpecFloat.
From stdpp Require Import base option list strings gmap.

Local Open Scope string_scope.

(** ** JavaScript values *)

(** A JavaScript number is an IEEE 754 double; the code only stores numbers
    and converts them to strings. *)
Definition number : Type := spec_float.

(** The identity of a Vue [Ref] object. *)
Definition Ref : Type := positive.

#[warnings="-register-all"]
Inductive value : Type :=
| VUndefined
| VNumber (n : number)
| VString (s : string)
| VRef (r : Ref)
| VArray (items : list value)
| VObject (fields : list (string * value)).

(** [v !== undefined] *)
Definition neq_undefined (v : value) : bool :=
  match v with
  | VUndefined => false
  | _ => true
  end.

(** The built-in conversion of a value to a string: what [+] appends when
    its left operand is a string. *)
Class ToStringOp := ToString : value → string.

(** ** Programs over external calls *)

Inductive Prog (E : Type → Type) (A : Type) : Type :=
| Ret (a : A)
| Vis {X : Type} (e : E X) (k : X → Prog E A).

Arguments Ret {E A} a.
Arguments Vis {E A X} e k.

Fixpoint bind {E A B} (p : Prog E A) (f : A → Prog E B) : Prog E B :=
  match p with
  | Ret a => f a
  | Vis e k => Vis e (λ x, bind (k x) f)
  end.

Definition trigger {E X} (e : E X) : Prog E X := Vis e Ret.

#[export] Instance Prog_ret {E} : MRet (Prog E) := λ A, Ret.
#[export] Instance Prog_bind {E} : MBind (Prog E) := λ A B f p, bind p f.

(** A handler answers every external call, threading the state of the
    outside world. *)
Definition handler (E : Type → Type) (S : Type) : Type :=
  ∀ X, E X → S → X * S.

Fixpoint run {E S A} (h : handler E S) (p : Prog E A) (s : S) : A * S :=
  match p with
  | Ret a => (a, s)
  | Vis e k => let '(x, s') := h _ e s in run h (k x) s'
  end.

(** The external calls a program makes, in order. *)
Fixpoint calls {E S A} (h : handler E S) (p : Prog E A) (s : S)
  : list (sigT E) :=
  match p with
  | Ret _ => []
  | Vis e k => existT _ e :: let '(x, s') := h _ e s in calls h (k x) s'
  end.

(** ** Asynchronous functions *)

Inductive asyncE : Type → Type :=
| ConsoleLog (args : list value) : asyncE unit
| Delay (ms : Z) : asyncE unit
| Await : asyncE unit
| Assign_loggedInUser (v : value) : asyncE unit.

(** Modelled from the spec: [delay] of ./delay, which is not among the
    sources, is the simulated network delay of the two demo fetch
    functions: [delay(ms)] returns a promise that resolves, with no value,
    once [ms] milliseconds have passed. *)
Definition delay (ms : Z) : Prog asyncE unit := trigger (Delay ms).

(** [await e]: the value of [e] is handed back in a later turn of the event
    loop. *)
Definition await {A} (e : Prog asyncE A) : Prog asyncE A :=
  x ← e; _ ← trigger Await; mret x.

(** ** Synchronous calls into Vue, nanoid and SWR *)

Definition fetcher : Type := list value → Prog asyncE value.

(** What [useSWR] hands back, as far as the hooks look at it. *)
Module SWR.
Record result := { data : value; error : value }.
End SWR.

Inductive syncE : Type → Type :=
| Nanoid : syncE string
| Provide (key : string) (v : value) : syncE unit
| Inject (key : string) : syncE value
| UseSWR (key : value) (fetch : fetcher) : syncE SWR.result.

(** The i-th actual argument of a call; a missing one is [undefined]. *)
Definition arg (i : nat) (args : list value) : value :=
  nth i args VUndefined.

(** ** fetchProduct.ts *)

(** The annotation [productId: number] is erased when the module is
    compiled: the function takes whatever value it is called with.  The
    conversion to a string is taken as total, as it is on numbers, strings
    and [undefined]; for an object without a primitive conversion the
    language raises a TypeError instead, which is not shown here, and the
    results stated below are for numbers and [undefined]. *)
Module FetchProduct.
Section with_builtins.
Context `{ToStringOp}.

Definition fetchProduct (productId : value) : Prog asyncE value :=
  _ ← trigger (ConsoleLog [VString "fetchProduct"; productId]);
  _ ← await (delay 1000);
  mret (VObject
          [("productId", productId);
           ("productName",
            VString ("Super Product #" +:+ ToString productId))]).
End with_builtins.
End FetchProduct.

(** ** fetchMyUser.ts *)

Module FetchMyUser.
Definition fetchMyUser : Prog asyncE value :=
  _ ← trigger (ConsoleLog [VString "fetchMyUser"]);
  _ ← await (delay 1000);
  mret (VObject [("username", VString "Super USER!")]).
End FetchMyUser.

(** ** ProvideInject.ts *)

Module ProvideInject.
(** [const key = nanoid()], evaluated when the module is loaded. *)
Definition load : Prog syncE string := trigger Nanoid.

Section module_scope.
Variable key : string.

Definition provideTheme (theme : string) : Prog syncE unit :=
  trigger (Provide key (VString theme)).

Definition injectTheme : Prog syncE value :=
  trigger (Inject key).
End module_scope.
End ProvideInject.

(** ** useProduct.ts *)

Module UseProduct.
Record result := { product : value; error : value }.

(** [const uniqueKey = nanoid()], evaluated when the module is loaded. *)
Definition load : Prog syncE string := trigger Nanoid.

Section module_scope.
Context `{ToStringOp}.
Variable uniqueKey : string.

Definition useProduct (productIdRef : Ref) : Prog syncE result :=
  let key := VArray [VString uniqueKey; VRef productIdRef] in
  r ← trigger (UseSWR key (λ args,
         let productId := arg 1 args in
         FetchProduct.fetchProduct productId));
  mret {| product := SWR.data r; error := SWR.error r |}.
End module_scope.
End UseProduct.

(** ** useMyUser.ts *)

Module UseMyUser.
Record result := { user : value; error : value }.

(** [const key = nanoid()], evaluated when the module is loaded. *)
Definition load : Prog syncE string := trigger Nanoid.

Section module_scope.
Variable key : string.

(** [fetchMyUser] declares no parameter: it ignores what it is called
    with. *)
Definition useMyUser : Prog syncE result :=
  r ← trigger (UseSWR (VString key) (λ _, FetchMyUser.fetchMyUser));
  mret {| user := SWR.data r; error := SWR.error r |}.
End module_scope.
End UseMyUser.

(** ** userLogin.ts *)

(** [loggedInUser = ref()] is a cell holding [undefined] at first.
    [isLoggedIn = computed(...)] is a derived cell: Vue evaluates the getter
    when the cell is read and no value is cached, caches the result, and
    drops the cache when a cell the getter read is assigned. *)
Module UserLogin.
Record cells := {
  loggedInUser : value;
  isLoggedIn_cache : option bool
}.

Definition init : cells :=
  {| loggedInUser := VUndefined; isLoggedIn_cache := None |}.

(** [() => loggedInUser.value !== undefined] *)
Definition isLoggedIn_getter (c : cells) : bool :=
  neq_undefined (loggedInUser c).

(** [isLoggedIn.value] *)
Definition isLoggedIn (c : cells) : bool * cells :=
  match isLoggedIn_cache c with
  | Some b => (b, c)
  | None =>
      let b := isLoggedIn_getter c in
      (b, {| loggedInUser := loggedInUser c; isLoggedIn_cache := Some b |})
  end.

(** [loggedInUser.value = v]; the object assigned by [login] is a new one
    each time, so Vue never takes the write for a repetition of the old
    value. *)
Definition assign_loggedInUser (v : value) (c : cells) : cells :=
  {| loggedInUser := v; isLoggedIn_cache := None |}.

Definition login : Prog asyncE unit :=
  u ← await FetchMyUser.fetchMyUser;
  trigger (Assign_loggedInUser u).
End UserLogin.

(** ** Vue's component tree, as far as provide and inject see it *)

(** Every component instance carries the provided values it inherited and
    its own.  [provide] writes the instance's own map, which starts as the
    parent's; [inject] reads the parent's map, and answers [undefined] for
    a key that is not there.  A child is created once the setup of its
    parent is over. *)
Module Vue.
Record instance := {
  parent_provides : gmap string value;
  provides : gmap string value
}.

(** The root component of an application with the given app-level
    provided values. *)
Definition root (app : gmap string value) : instance :=
  {| parent_provides := app; provides := app |}.

Definition child (parent : instance) : instance :=
  {| parent_provides := provides parent; provides := provides parent |}.

Definition provide (key : string) (v : value) (i : instance) : instance :=
  {| parent_provides := parent_provides i;
     provides := <[key := v]> (provides i) |}.

Definition inject (key : string) (i : instance) : value :=
  default VUndefined (parent_provides i !! key).

(** nanoid and the SWR package, with whatever state [W] they keep. *)
Record world (W : Type) := {
  nanoid : W → string * W;
  useSWR : value → fetcher → W → SWR.result * W
}.
Arguments nanoid {W} _ _.
Arguments useSWR {W} _ _ _ _.

Section setup.
Context {W : Type} (ext : world W).

(** The calls of a component's setup, run in that component. *)
Definition in_setup : handler syncE (instance * W) :=
  λ X e,
    match e in syncE X return instance * W → X * (instance * W) with
    | Nanoid => λ '(i, w), let '(k, w') := nanoid ext w in (k, (i, w'))
    | Provide key v => λ '(i, w), (tt, (provide key v i, w))
    | Inject key => λ '(i, w), (inject key i, (i, w))
    | UseSWR key fetch =>
        λ '(i, w), let '(r, w') := useSWR ext key fetch w in (r, (i, w'))
    end.

(** Creates a child of [parent] and runs its setup. *)
Definition mount {A} (setup : Prog syncE A) (parent : instance) (w : W)
  : A * (instance * W) :=
  run in_setup setup (child parent, w).

(** Mounts a chain of components below [top], each the child of the one
    before; answers the last one. *)
Fixpoint mount_chain (chain : list (Prog syncE unit)) (top : instance)
    (w : W) : instance * W :=
  match chain with
  | [] => (top, w)
  | setup :: chain' =>
      let '(_, (c, w')) := mount setup top w in mount_chain chain' c w'
  end.
End setup.
End Vue.

(** ** The event loop, as far as the login state sees it *)

(** A call of an asynchronous function runs until its first [await]; what
    remains waits among the pending tasks and is resumed, one [await] at a
    time, in some later turn.  Timers are not measured: any pending task
    may be the next to resume, which covers every order the real loop can
    choose. *)
Module EventLoop.
Import UserLogin.

Record machine := {
  state : cells;
  console : list (list value);
  pending : list (Prog asyncE unit)
}.

Definition boot : machine :=
  {| state := init; console := []; pending := [] |}.

(** Runs a task up to its next [await]; answers what remains of it, if
    it has not returned. *)
Fixpoint advance (p : Prog asyncE unit) (c : cells)
    (out : list (list value))
  : cells * list (list value) * option (Prog asyncE unit) :=
  match p with
  | Ret _ => (c, out, None)
  | Vis e k =>
      match e in asyncE X
            return (X → Prog asyncE unit) →
                   (X → cells → list (list value) →
                    cells * list (list value) * option (Prog asyncE unit)) →
                   cells * list (list value) * option (Prog asyncE unit)
      with
      | ConsoleLog args => λ _ go, go tt c (out ++ [args])%list
      | Delay _ => λ _ go, go tt c out
      | Await => λ k _, (c, out, Some (k tt))
      | Assign_loggedInUser v => λ _ go, go tt (assign_loggedInUser v c) out
      end k (λ x, advance (k x))
  end.

Inductive label :=
| Called
| Resumed
| Resolved
| Read (b : bool).

Inductive step : machine → label → machine → Prop :=
| step_login m c out rest :
    advance login (state m) (console m) = (c, out, rest) →
    step m Called
      {| state := c; console := out;
         pending := (pending m ++ option_list rest)%list |}
| step_resume m i p c out p' :
    pending m !! i = Some p →
    advance p (state m) (console m) = (c, out, Some p') →
    step m Resumed
      {| state := c; console := out; pending := <[i := p']> (pending m) |}
| step_resolve m i p c out :
    pending m !! i = Some p →
    advance p (state m) (console m) = (c, out, None) →
    step m Resolved
      {| state := c; console := out; pending := delete i (pending m) |}
| step_read m :
    step m (Read (isLoggedIn (state m)).1)
      {| state := (isLoggedIn (state m)).2; console := console m;
         pending := pending m |}.

Definition next (m m' : machine) : Prop := ∃ l, step m l m'.

Definition reachable (m : machine) : Prop := rtc next boot m.
End EventLoop.

(** ** What a function does, call by call *)

Inductive kind :=
| KNanoid | KProvide | KInject | KUseSWR
| KConsoleLog | KDelay | KAwait | KAssign.

#[export] Instance kind_eq_dec : EqDecision kind.
Proof. solve_decision. Defined.

Definition sync_kind (c : sigT syncE) : kind :=
  match projT2 c with
  | Nanoid => KNanoid
  | Provide _ _ => KProvide
  | Inject _ => KInject
  | UseSWR _ _ => KUseSWR
  end.

Definition async_kind (c : sigT asyncE) : kind :=
  match projT2 c with
  | ConsoleLog _ => KConsoleLog
  | Delay _ => KDelay
  | Await => KAwait
  | Assign_loggedInUser _ => KAssign
  end.

Definition sync_kinds {S A} (h : handler syncE S) (p : Prog syncE A) (s : S)
  : list kind := sync_kind <$> calls h p s.

Definition async_kinds {S A} (h : handler asyncE S) (p : Prog asyncE A)
    (s : S) : list kind := async_kind <$> calls h p s.

Definition occurrences (k : kind) (ks : list kind) : nat :=
  count_occ kind_eq_dec ks k.

(** The simulated delays among the calls of an asynchronous function, by
    their length in milliseconds. *)
Definition delays (cs : list (sigT asyncE)) : list Z :=
  omap (λ c, match projT2 c with Delay ms => Some ms | _ => None end) cs.

(** The keys handed to [useSWR] among the calls of a hook. *)
Definition swr_keys (cs : list (sigT syncE)) : list value :=
  omap (λ c, match projT2 c with UseSWR key _ => Some key | _ => None end) cs.

(** The three things the spec lets an exported function do: (a) a call of
    the broadcast primitive, (b) a call of the cache utility, (c) an
    assignment to the shared cell. *)
Definition uses_broadcast (ks : list kind) : bool :=
  bool_decide (occurrences KProvide ks + occurrences KInject ks = 1).

Definition uses_cache (ks : list kind) : bool :=
  bool_decide (occurrences KUseSWR ks = 1).

Definition assigns_cell (ks : list kind) : bool :=
  bool_decide (occurrences KAssign ks = 1).

Definition exactly_one_of (a b c : bool) : bool :=
  match a, b, c with
  | true, false, false | false, true, false | false, false, true => true
  | _, _, _ => false
  end.

Definition does_one_thing (ks : list kind) : bool :=
  exactly_one_of (uses_broadcast ks) (uses_cache ks) (assigns_cell ks).

(** The handler of a world that keeps no state, for functions whose calls
    answer nothing. *)
Definition idle : handler asyncE unit :=
  λ X e,
    match e in asyncE X return unit → X * unit with
    | ConsoleLog _ | Delay _ | Await | Assign_loggedInUser _ => λ s, (tt, s)
    end.

(** Runs the programs one after the other. *)
Fixpoint each {E A} (ps : list (Prog E A)) : Prog E (list A) :=
  match ps with
  | [] => mret []
  | p :: ps' => a ← p; rest ← each ps'; mret (a :: rest)
  end.

(** The module is loaded, then the hook is called from [n] components. *)
Definition useMyUser_session (n : nat)
  : Prog syncE (list UseMyUser.result) :=
  key ← UseMyUser.load; each (replicate n (UseMyUser.useMyUser key)).

(** The module is loaded, then the hook is called once with each of the
    refs. *)
Definition useProduct_session `{ToStringOp} (refs : list Ref)
  : Prog syncE (list UseProduct.result) :=
  uniqueKey ← UseProduct.load;
  each (UseProduct.useProduct uniqueKey <$> refs).

(** The claim on [useProduct], in its own words: one call of [useSWR], with
    the key [[uniqueKey, productIdRef]] and a fetcher that hands its second
    argument to [fetchProduct], and the answer returned as it is. *)
Definition useProduct_spec `{ToStringOp} (uniqueKey : string)
    (productIdRef : Ref) (p : Prog syncE UseProduct.result) : Prop :=
  ∃ fetch : fetcher,
    (∀ x productId, fetch [x; productId] = FetchProduct.fetchProduct productId)
    ∧ p = Vis (UseSWR (VArray [VString uniqueKey; VRef productIdRef]) fetch)
            (λ r, Ret {| UseProduct.product := SWR.data r;
                         UseProduct.error := SWR.error r |}).

(** The key a call provides a value under, if it is a call of [provide]. *)
Definition provided_key {X} (e : syncE X) : option string :=
  match e with
  | Provide key _ => Some key
  | _ => None
  end.

(** A setup that never calls [provide] with the given key, whatever its
    other calls answer. *)
Inductive never_provides (key : string) {A} : Prog syncE A → Prop :=
| never_provides_ret a : never_provides key (Ret a)
| never_provides_vis X (e : syncE X) k :
    provided_key e ≠ Some key →
    (∀ x, never_provides key (k x)) →
    never_provides key (Vis e k).

(** A world for examples: nanoid answers the empty string, and SWR has
    neither data nor an error to show yet. *)
Definition offline : Vue.world unit :=
  {| Vue.nanoid := λ w, ("", w);
     Vue.useSWR := λ _ _ w,
       ({| SWR.data := VUndefined; SWR.error := VUndefined |}, w) |}.

(** A task that assigns nothing but values other than [undefined] to
    [loggedInUser.value], and does not return before it has assigned one;
    [assigned] tells whether it already has. *)
Inductive logs_in : bool → Prog asyncE unit → Prop :=
| logs_in_ret : logs_in true (Ret tt)
| logs_in_log assigned args k :
    logs_in assigned (k tt) →
    logs_in assigned (Vis (ConsoleLog args) k)
| logs_in_delay assigned ms k :
    logs_in assigned (k tt) →
    logs_in assigned (Vis (Delay ms) k)
| logs_in_await assigned k :
    logs_in assigned (k tt) →
    logs_in assigned (Vis Await k)
| logs_in_assign assigned v k :
    neq_undefined v = true →
    logs_in true (k tt) →
    logs_in assigned (Vis (Assign_loggedInUser v) k).

(** The cached value of [isLoggedIn], when there is one, is what the
    getter answers now. *)
Definition cache_fresh (c : UserLogin.cells) : Prop :=
  ∀ b, UserLogin.isLoggedIn_cache c = Some b → b = UserLogin.isLoggedIn_getter c.

Definition logged_in (c : UserLogin.cells) : Prop :=
  neq_undefined (UserLogin.loggedInUser c) = true.

(** What every state of the event loop satisfies: the cache is fresh, and
    the pending tasks are logins on their way, those that have assigned
    having left a user behind. *)
Definition consistent (m : EventLoop.machine) : Prop :=
  cache_fresh (EventLoop.state m)
  ∧ Forall (λ p, ∃ assigned,
                logs_in assigned p
                ∧ (assigned = true → logged_in (EventLoop.state m)))
      (EventLoop.pending m).

(** Two states of the event loop for examples: one call of [login] has
    passed its two awaits and is about to assign; the same call has
    resolved. *)
Definition about_to_assign : EventLoop.machine :=
  {| EventLoop.state := UserLogin.init;
     EventLoop.console := [[VString "fetchMyUser"]];
     EventLoop.pending :=
       [trigger (Assign_loggedInUser
                   (VObject [("username", VString "Super USER!")]))] |}.

Definition logged_in_once : EventLoop.machine :=
  {| EventLoop.state :=
       UserLogin.assign_loggedInUser
         (VObject [("username", VString "Super USER!")]) UserLogin.init;
     EventLoop.console := [[VString "fetchMyUser"]];
     EventLoop.pending := [] |}.

(** ** More observations *)

(** The fetch functions handed to [useSWR] among the calls of a hook. *)
Definition swr_fetchers (cs : list (sigT syncE)) : list fetcher :=
  omap (λ c, match projT2 c with UseSWR _ fetch => Some fetch | _ => None end)
    cs.

(** The lines written to the console among the calls of an asynchronous
    function. *)
Definition logged (cs : list (sigT asyncE)) : list (list value) :=
  omap (λ c, match projT2 c with ConsoleLog args => Some args | _ => None end)
    cs.

(** What a component that only reads may call in its setup: [injectTheme]
    and the two hooks. *)
Inductive reader :=
| ReadTheme
| ReadUser (key : string)
| ReadProduct (uniqueKey : string) (productIdRef : Ref).

Definition reader_call `{ToStringOp} (themeKey : string) (r : reader)
  : Prog syncE unit :=
  match r with
  | ReadTheme => ProvideInject.injectTheme themeKey ≫= λ _, mret tt
  | ReadUser key => UseMyUser.useMyUser key ≫= λ _, mret tt
  | ReadProduct uniqueKey productIdRef =>
      UseProduct.useProduct uniqueKey productIdRef ≫= λ _, mret tt
  end.

(** The setup of a component that makes the given reads, in order. *)
Fixpoint reader_setup `{ToStringOp} (themeKey : string) (rs : list reader)
  : Prog syncE unit :=
  match rs with
  | [] => mret tt
  | r :: rs' => reader_call themeKey r ≫= λ _, reader_setup themeKey rs'
  end.

(** [{ username: 'Super USER!' }] *)
Definition super_user : value :=
  VObject [("username", VString "Super USER!")].

(** What is left of a call of [login] while the delay runs: the await of
    the promise of [fetchMyUser], then the assignment. *)
Definition awaiting_delay : Prog asyncE unit :=
  _ ← trigger Await; trigger (Assign_loggedInUser super_user).

(** What is left of it once [fetchMyUser] has resolved. *)
Definition awaiting_fetch : Prog asyncE unit :=
  trigger (Assign_loggedInUser super_user).

Definition login_tasks (m : EventLoop.machine) : Prop :=
  Forall (λ p, p = awaiting_delay ∨ p = awaiting_fetch) (EventLoop.pending m).

#[export] Instance label_eq_dec : EqDecision EventLoop.label.
Proof. solve_decision. Defined.

Definition count (l : EventLoop.label) (ls : list EventLoop.label) : nat :=
  count_occ label_eq_dec ls l.

(** The steps taken since the modules were loaded, oldest first, and the
    state they led to. *)
Inductive history : list EventLoop.label → EventLoop.machine → Prop :=
| history_boot : history [] EventLoop.boot
| history_step ls m l m' :
    history ls m →
    EventLoop.step m l m' →
    history (ls ++ [l]) m'.

(** * Properties *)

Section programs.
Context {E : Type → Type} {S : Type} (h : handler E S).

Lemma run_bind {A B} (p : Prog E A) (f : A → Prog E B) (s : S) :
  run h (p ≫= f) s = run h (f (run h p s).1) (run h p s).2.
Proof.
  revert s. induction p as [a | X e k IH]; intros s; [done |].
  cbn. destruct (h X e s) as [x s']. apply IH.
Qed.

Lemma calls_bind {A B} (p : Prog E A) (f : A → Prog E B) (s : S) :
  calls h (p ≫= f) s
  = (calls h p s ++ calls h (f (run h p s).1) (run h p s).2)%list.
Proof.
  revert s. induction p as [a | X e k IH]; intros s; [done |].
  cbn. destruct (h X e s) as [x s']. f_equal. apply IH.
Qed.

Lemma calls_trigger {X} (e : E X) (s : S) :
  calls h (trigger e) s = [existT X e].
Proof. cbn. by destruct (h X e s). Qed.
End programs.

(** ** The fetch functions *)

Section fetch.
Context `{ToStringOp} {S : Type} (h : handler asyncE S).

Lemma fetchProduct_calls (productId : value) (s : S) :
  calls h (FetchProduct.fetchProduct productId) s
  = [existT _ (ConsoleLog [VString "fetchProduct"; productId]);
     existT _ (Delay 1000); existT _ Await].
Proof.
  cbn. destruct (h _ (ConsoleLog _) s) as [[] s1]; cbn.
  destruct (h _ (Delay _) s1) as [[] s2]; cbn.
  by destruct (h _ Await s2) as [[] s3].
Qed.

Lemma fetchProduct_result (productId : value) (s : S) :
  (run h (FetchProduct.fetchProduct productId) s).1
  = VObject [("productId", productId);
             ("productName",
              VString ("Super Product #" +:+ ToString productId))].
Proof.
  cbn. destruct (h _ (ConsoleLog _) s) as [[] s1]; cbn.
  destruct (h _ (Delay _) s1) as [[] s2]; cbn.
  by destruct (h _ Await s2) as [[] s3].
Qed.

Lemma fetchMyUser_calls (s : S) :
  calls h FetchMyUser.fetchMyUser s
  = [existT _ (ConsoleLog [VString "fetchMyUser"]);
     existT _ (Delay 1000); existT _ Await].
Proof.
  cbn. destruct (h _ (ConsoleLog _) s) as [[] s1]; cbn.
  destruct (h _ (Delay _) s1) as [[] s2]; cbn.
  by destruct (h _ Await s2) as [[] s3].
Qed.

Lemma fetchMyUser_result (s : S) :
  (run h FetchMyUser.fetchMyUser s).1
  = VObject [("username", VString "Super USER!")].
Proof.
  cbn. destruct (h _ (ConsoleLog _) s) as [[] s1]; cbn.
  destruct (h _ (Delay _) s1) as [[] s2]; cbn.
  by destruct (h _ Await s2) as [[] s3].
Qed.

Lemma login_calls (s : S) :
  calls h UserLogin.login s
  = (calls h FetchMyUser.fetchMyUser s
     ++ [existT _ Await;
         existT _ (Assign_loggedInUser
                     (VObject [("username", VString "Super USER!")]))])%list.
Proof.
  cbn. destruct (h _ (ConsoleLog _) s) as [[] s1]; cbn.
  destruct (h _ (Delay _) s1) as [[] s2]; cbn.
  destruct (h _ Await s2) as [[] s3]; cbn.
  destruct (h _ Await s3) as [[] s4]; cbn.
  by destruct (h _ (Assign_loggedInUser _) s4) as [[] s5].
Qed.
End fetch.

(** C3: for every number [productId], [fetchProduct(productId)] logs, waits
    for one simulated delay of 1000 ms and then resolves to the object
    [{ productId, productName: 'Super Product #' + productId }]; of the
    other functions only [fetchMyUser] has such a delay: [login] waits for
    the one of the [fetchMyUser] it calls and adds none, and the hooks and
    the theme functions make no asynchronous call at all. *)
Theorem fetchProduct_delays_once_then_resolves `{ToStringOp}
    {S S' : Type} (h : handler asyncE S) (h' : handler syncE S')
    (s : S) (s' : S') (productId : number)
    (key theme : string) (productIdRef : Ref) :
  let p := FetchProduct.fetchProduct (VNumber productId) in
  calls h p s
  = [existT _ (ConsoleLog [VString "fetchProduct"; VNumber productId]);
     existT _ (Delay 1000); existT _ Await]
  ∧ delays (calls h p s) = [1000%Z]
  ∧ (run h p s).1
    = VObject [("productId", VNumber productId);
               ("productName",
                VString ("Super Product #" +:+ ToString (VNumber productId)))]
  ∧ delays (calls h FetchMyUser.fetchMyUser s) = [1000%Z]
  ∧ delays (calls h UserLogin.login s)
    = delays (calls h FetchMyUser.fetchMyUser s)
  ∧ occurrences KDelay
      (sync_kinds h' (ProvideInject.provideTheme key theme) s') = 0
  ∧ occurrences KDelay (sync_kinds h' (ProvideInject.injectTheme key) s') = 0
  ∧ occurrences KDelay
      (sync_kinds h' (UseProduct.useProduct key productIdRef) s') = 0
  ∧ occurrences KDelay (sync_kinds h' (UseMyUser.useMyUser key) s') = 0.
Proof.
  cbv zeta. rewrite login_calls, fetchProduct_calls, fetchMyUser_calls,
    fetchProduct_result.
  unfold sync_kinds, ProvideInject.provideTheme, ProvideInject.injectTheme.
  rewrite !calls_trigger.
  repeat split; try reflexivity.
  - cbn. by destruct (h' _ _ s') as [r s1].
  - cbn. by destruct (h' _ _ s') as [r s1].
Qed.

(** C8: whatever the state of the world and whatever it answers, and
    however many calls came before, a call of [fetchMyUser] runs to its end
    and resolves to the object [{ username: 'Super USER!' }], which is not
    [undefined]. *)
Theorem fetchMyUser_always_resolves_to_the_user
    {S : Type} (h : handler asyncE S) (s : S) (n : nat) :
  (run h FetchMyUser.fetchMyUser s).1
  = VObject [("username", VString "Super USER!")]
  ∧ neq_undefined (run h FetchMyUser.fetchMyUser s).1 = true
  ∧ (run h (each (replicate n FetchMyUser.fetchMyUser)) s).1
    = replicate n (VObject [("username", VString "Super USER!")]).
Proof.
  rewrite fetchMyUser_result. repeat split.
  revert s. induction n as [| n IH]; intros s; [done |].
  cbn [replicate each]. rewrite run_bind, run_bind, fetchMyUser_result, IH.
  reflexivity.
Qed.

(** ** The hooks *)

Section hooks.
Context `{ToStringOp} {S : Type} (h : handler syncE S).

Lemma useMyUser_calls (key : string) (s : S) :
  calls h (UseMyUser.useMyUser key) s
  = [existT _ (UseSWR (VString key) (λ _, FetchMyUser.fetchMyUser))].
Proof. cbn. by destruct (h _ _ s). Qed.

Lemma useMyUser_run (key : string) (s : S) :
  let a := h _ (UseSWR (VString key) (λ _, FetchMyUser.fetchMyUser)) s in
  run h (UseMyUser.useMyUser key) s
  = ({| UseMyUser.user := SWR.data a.1;
        UseMyUser.error := SWR.error a.1 |}, a.2).
Proof. cbn. by destruct (h _ _ s). Qed.

Lemma useProduct_calls (uniqueKey : string) (productIdRef : Ref) (s : S) :
  calls h (UseProduct.useProduct uniqueKey productIdRef) s
  = [existT _ (UseSWR (VArray [VString uniqueKey; VRef productIdRef])
                 (λ args, FetchProduct.fetchProduct (arg 1 args)))].
Proof. cbn. by destruct (h _ _ s). Qed.

Lemma useProduct_run (uniqueKey : string) (productIdRef : Ref) (s : S) :
  let a := h _ (UseSWR (VArray [VString uniqueKey; VRef productIdRef])
                  (λ args, FetchProduct.fetchProduct (arg 1 args))) s in
  run h (UseProduct.useProduct uniqueKey productIdRef) s
  = ({| UseProduct.product := SWR.data a.1;
        UseProduct.error := SWR.error a.1 |}, a.2).
Proof. cbn. by destruct (h _ _ s). Qed.
End hooks.

(** C1: whatever pair [useSWR] answers, [useMyUser] returns its [error]
    as it is, beside its [data] under the name [user], and [useProduct]
    returns its [error] as it is, beside its [data] under the name
    [product]. *)
Theorem hooks_return_the_error_of_useSWR `{ToStringOp}
    {S : Type} (h : handler syncE S) (s : S)
    (key uniqueKey : string) (productIdRef : Ref) :
  (∃ k fetch,
      calls h (UseMyUser.useMyUser key) s = [existT _ (UseSWR k fetch)]
      ∧ let answer := (h _ (UseSWR k fetch) s).1 in
        let returned := (run h (UseMyUser.useMyUser key) s).1 in
        UseMyUser.error returned = SWR.error answer
        ∧ UseMyUser.user returned = SWR.data answer)
  ∧ (∃ k fetch,
      calls h (UseProduct.useProduct uniqueKey productIdRef) s
      = [existT _ (UseSWR k fetch)]
      ∧ let answer := (h _ (UseSWR k fetch) s).1 in
        let returned :=
          (run h (UseProduct.useProduct uniqueKey productIdRef) s).1 in
        UseProduct.error returned = SWR.error answer
        ∧ UseProduct.product returned = SWR.data answer).
Proof.
  split; do 2 eexists.
  - rewrite useMyUser_calls, useMyUser_run. done.
  - rewrite useProduct_calls, useProduct_run. done.
Qed.

(** C7: [useProduct] is one call of [useSWR], with the key
    [[uniqueKey, productIdRef]] and a fetcher that hands its second argument
    to [fetchProduct]; it returns what [useSWR] answered, [data] under the
    name [product], and leaves the world as [useSWR] left it: it keeps no
    cache and makes no second call of its own. *)
Theorem useProduct_only_delegates_to_useSWR `{ToStringOp}
    (uniqueKey : string) (productIdRef : Ref) :
  useProduct_spec uniqueKey productIdRef
    (UseProduct.useProduct uniqueKey productIdRef)
  ∧ ∀ {S : Type} (h : handler syncE S) (s : S),
      ∃ fetch : fetcher,
        (∀ x productId,
            fetch [x; productId] = FetchProduct.fetchProduct productId)
        ∧ calls h (UseProduct.useProduct uniqueKey productIdRef) s
          = [existT _ (UseSWR (VArray [VString uniqueKey; VRef productIdRef])
                         fetch)]
        ∧ let answer :=
            h _ (UseSWR (VArray [VString uniqueKey; VRef productIdRef])
                   fetch) s in
          run h (UseProduct.useProduct uniqueKey productIdRef) s
          = ({| UseProduct.product := SWR.data answer.1;
                UseProduct.error := SWR.error answer.1 |}, answer.2).
Proof.
  split.
  - eexists. split; [| reflexivity]. done.
  - intros S h s.
    exists (λ args, FetchProduct.fetchProduct (arg 1 args)).
    split; [| split].
    + intros x productId. reflexivity.
    + apply useProduct_calls.
    + apply useProduct_run.
Qed.

Section sessions.
Context `{ToStringOp} {S : Type} (h : handler syncE S).

Lemma calls_each_cons {A} (p : Prog syncE A) (ps : list (Prog syncE A))
    (s : S) :
  calls h (each (p :: ps)) s
  = (calls h p s ++ calls h (each ps) (run h p s).2)%list.
Proof.
  cbn [each]. rewrite calls_bind, calls_bind. cbn [calls mret Prog_ret].
  by rewrite app_nil_r.
Qed.

Lemma useMyUser_repeated_calls (key : string) (n : nat) (s : S) :
  calls h (each (replicate n (UseMyUser.useMyUser key))) s
  = replicate n
      (existT _ (UseSWR (VString key) (λ _, FetchMyUser.fetchMyUser))).
Proof.
  revert s. induction n as [| n IH]; intros s; [done |].
  cbn [replicate]. by rewrite calls_each_cons, useMyUser_calls, IH.
Qed.

Lemma useProduct_repeated_calls (uniqueKey : string) (refs : list Ref)
    (s : S) :
  calls h (each (UseProduct.useProduct uniqueKey <$> refs)) s
  = (λ r, existT _ (UseSWR (VArray [VString uniqueKey; VRef r])
                      (λ args, FetchProduct.fetchProduct (arg 1 args))))
    <$> refs.
Proof.
  revert s. induction refs as [| r refs IH]; intros s; [done |].
  cbn [fmap list_fmap]. rewrite calls_each_cons, useProduct_calls.
  cbn [app]. f_equal. apply IH.
Qed.

Lemma load_then_calls {A} (f : string → Prog syncE A) (s : S) :
  calls h (trigger Nanoid ≫= f) s
  = existT _ Nanoid :: calls h (f (h _ Nanoid s).1) (h _ Nanoid s).2.
Proof. cbn. by destruct (h _ Nanoid s). Qed.
End sessions.

(** C6: a hook module asks nanoid for its key once, when it is loaded;
    every call of [useMyUser] made afterwards hands that key to [useSWR],
    and every call of [useProduct] hands over an array whose first
    component is that key, followed by the ref it was called with. *)
Theorem hook_keys_are_generated_once `{ToStringOp}
    {S : Type} (h : handler syncE S) (s : S) (n : nat) (refs : list Ref) :
  let generated := (h _ Nanoid s).1 in
  occurrences KNanoid (sync_kinds h (useMyUser_session n) s) = 1
  ∧ swr_keys (calls h (useMyUser_session n) s)
    = replicate n (VString generated)
  ∧ occurrences KNanoid (sync_kinds h (useProduct_session refs) s) = 1
  ∧ swr_keys (calls h (useProduct_session refs) s)
    = (λ r, VArray [VString generated; VRef r]) <$> refs.
Proof.
  unfold useMyUser_session, useProduct_session, sync_kinds,
    UseMyUser.load, UseProduct.load.
  rewrite !load_then_calls, useMyUser_repeated_calls,
    useProduct_repeated_calls.
  cbn zeta. generalize (h _ Nanoid s).1 as k. intros k.
  repeat split.
  - induction n as [| n IH]; [done |]. exact IH.
  - induction n as [| n IH]; [done |].
    cbn in IH |- *. by rewrite IH.
  - induction refs as [| r refs IH]; [done |]. exact IH.
  - induction refs as [| r refs IH]; [done |].
    cbn in IH |- *. by rewrite IH.
Qed.

(** C4, as the code has it: [provideTheme] makes one call of the broadcast
    primitive, forwarding its theme to [provide] under the module key, and
    [injectTheme] one, forwarding the key to [inject] and returning what it
    answers; [useProduct] and [useMyUser] make one call of [useSWR] each,
    with their key and their fetch function, and return its answer; [login]
    makes one assignment to the shared cell, of the user, once the
    [fetchMyUser] it awaits has resolved; [fetchProduct], for a number, and
    [fetchMyUser] do none of the three: they log, wait for the delay and
    return their object.  The calls of each function are the same, in
    number and in order, whatever the arguments and whatever the world
    answers: nothing branches, nothing is tried twice, and no answer is
    looked into. *)
Theorem exported_functions_by_their_calls `{ToStringOp}
    {S S' : Type} (h : handler asyncE S) (h' : handler syncE S')
    (s : S) (s' : S') (key theme : string) (productIdRef : Ref)
    (productId : number) :
  let provideTheme := sync_kinds h' (ProvideInject.provideTheme key theme) s' in
  let injectTheme := sync_kinds h' (ProvideInject.injectTheme key) s' in
  let useProduct :=
    sync_kinds h' (UseProduct.useProduct key productIdRef) s' in
  let useMyUser := sync_kinds h' (UseMyUser.useMyUser key) s' in
  let login := async_kinds h UserLogin.login s in
  let fetchProduct :=
    async_kinds h (FetchProduct.fetchProduct (VNumber productId)) s in
  let fetchMyUser := async_kinds h FetchMyUser.fetchMyUser s in
  let user := VObject [("username", VString "Super USER!")] in
  (calls h' (ProvideInject.provideTheme key theme) s'
   = [existT _ (Provide key (VString theme))]
   ∧ (calls h' (ProvideInject.injectTheme key) s' = [existT _ (Inject key)]
      ∧ run h' (ProvideInject.injectTheme key) s' = h' _ (Inject key) s')
   ∧ (∃ fetch : fetcher,
        (∀ x id, fetch [x; id] = FetchProduct.fetchProduct id)
        ∧ calls h' (UseProduct.useProduct key productIdRef) s'
          = [existT _ (UseSWR (VArray [VString key; VRef productIdRef])
                         fetch)]
        ∧ let answer :=
            h' _ (UseSWR (VArray [VString key; VRef productIdRef]) fetch)
              s' in
          run h' (UseProduct.useProduct key productIdRef) s'
          = ({| UseProduct.product := SWR.data answer.1;
                UseProduct.error := SWR.error answer.1 |}, answer.2))
   ∧ (∃ fetch : fetcher,
        (∀ args, fetch args = FetchMyUser.fetchMyUser)
        ∧ calls h' (UseMyUser.useMyUser key) s'
          = [existT _ (UseSWR (VString key) fetch)]
        ∧ let answer := h' _ (UseSWR (VString key) fetch) s' in
          run h' (UseMyUser.useMyUser key) s'
          = ({| UseMyUser.user := SWR.data answer.1;
                UseMyUser.error := SWR.error answer.1 |}, answer.2))
   ∧ calls h UserLogin.login s
     = [existT _ (ConsoleLog [VString "fetchMyUser"]);
        existT _ (Delay 1000); existT _ Await; existT _ Await;
        existT _ (Assign_loggedInUser user)]
   ∧ (calls h (FetchProduct.fetchProduct (VNumber productId)) s
      = [existT _ (ConsoleLog [VString "fetchProduct"; VNumber productId]);
         existT _ (Delay 1000); existT _ Await]
      ∧ (run h (FetchProduct.fetchProduct (VNumber productId)) s).1
        = VObject
            [("productId", VNumber productId);
             ("productName",
              VString ("Super Product #" +:+ ToString (VNumber productId)))])
   ∧ (calls h FetchMyUser.fetchMyUser s
      = [existT _ (ConsoleLog [VString "fetchMyUser"]);
         existT _ (Delay 1000); existT _ Await]
      ∧ (run h FetchMyUser.fetchMyUser s).1 = user))
  ∧ (provideTheme = [KProvide]
     ∧ injectTheme = [KInject]
     ∧ useProduct = [KUseSWR]
     ∧ useMyUser = [KUseSWR]
     ∧ login = [KConsoleLog; KDelay; KAwait; KAwait; KAssign]
     ∧ fetchProduct = [KConsoleLog; KDelay; KAwait]
     ∧ fetchMyUser = [KConsoleLog; KDelay; KAwait])
  ∧ (does_one_thing provideTheme = true
     ∧ does_one_thing injectTheme = true
     ∧ does_one_thing useProduct = true
     ∧ does_one_thing useMyUser = true
     ∧ does_one_thing login = true)
  ∧ (does_one_thing fetchProduct = false
     ∧ does_one_thing fetchMyUser = false).
Proof.
  cbv zeta. split.
  - rewrite login_calls, fetchProduct_calls, fetchMyUser_calls,
      fetchProduct_result, fetchMyUser_result.
    unfold ProvideInject.provideTheme, ProvideInject.injectTheme.
    rewrite !calls_trigger.
    split; [done |]. split.
    { split; [done |]. cbn. by destruct (h' _ (Inject key) s'). }
    split.
    { exists (λ args, FetchProduct.fetchProduct (arg 1 args)).
      split; [done |]. split; [apply useProduct_calls | apply useProduct_run]. }
    split.
    { exists (λ _, FetchMyUser.fetchMyUser).
      split; [done |]. split; [apply useMyUser_calls | apply useMyUser_run]. }
    done.
  - unfold sync_kinds, async_kinds,
      ProvideInject.provideTheme, ProvideInject.injectTheme.
    rewrite !calls_trigger, useProduct_calls, useMyUser_calls, login_calls,
      fetchProduct_calls, fetchMyUser_calls.
    repeat split.
Qed.

(** C4, as the claim has it, fails at [fetchMyUser]: its calls are a log,
    a delay and an await, none of them one of the three things. *)
Lemma fetchMyUser_does_none_of_the_three :
  async_kinds idle FetchMyUser.fetchMyUser tt
  = [KConsoleLog; KDelay; KAwait]
  ∧ does_one_thing (async_kinds idle FetchMyUser.fetchMyUser tt) = false.
Proof. split; reflexivity. Qed.

(** ** Provide and inject along the component tree *)

Section component_tree.
Context {W : Type} (ext : Vue.world W).

Lemma setup_keeps_parent_provides {A} (p : Prog syncE A)
    (i : Vue.instance) (w : W) :
  Vue.parent_provides (run (Vue.in_setup ext) p (i, w)).2.1
  = Vue.parent_provides i.
Proof.
  revert i w. induction p as [a | X e k IH]; intros i w; [done |].
  destruct e as [| key v | key | key fetch]; cbn.
  - destruct (Vue.nanoid ext w) as [x w']. apply IH.
  - rewrite IH. done.
  - apply IH.
  - destruct (Vue.useSWR ext key fetch w) as [x w']. apply IH.
Qed.

Lemma setup_keeps_provided {A} (key : string) (p : Prog syncE A) :
  never_provides key p →
  ∀ (i : Vue.instance) (w : W),
    Vue.provides (run (Vue.in_setup ext) p (i, w)).2.1 !! key
    = Vue.provides i !! key.
Proof.
  induction 1 as [a | X e k Hkey _ IH]; intros i w; [done |].
  destruct e as [| key' v | key' | key' fetch]; cbn.
  - destruct (Vue.nanoid ext w) as [x w']. apply IH.
  - rewrite IH. cbn. apply lookup_insert_ne. cbn in Hkey. congruence.
  - apply IH.
  - destruct (Vue.useSWR ext key' fetch w) as [x w']. apply IH.
Qed.

Lemma mount_chain_keeps_provided (key : string)
    (chain : list (Prog syncE unit)) :
  Forall (never_provides key) chain →
  ∀ (top : Vue.instance) (w : W),
    Vue.provides (Vue.mount_chain ext chain top w).1 !! key
    = Vue.provides top !! key.
Proof.
  induction 1 as [| setup chain Hsetup _ IH]; intros top w; [done |].
  cbn [Vue.mount_chain]. unfold Vue.mount.
  pose proof (setup_keeps_provided key setup Hsetup (Vue.child top) w) as Hp.
  destruct (run (Vue.in_setup ext) setup (Vue.child top, w))
    as [[] [c w']].
  rewrite IH. exact Hp.
Qed.

(** What [injectTheme] answers at the end of a setup is what the parent
    provides under the key. *)
Lemma injectTheme_reads_parent (key : string) (own : Prog syncE unit)
    (parent : Vue.instance) (w : W) :
  (Vue.mount ext (own ≫= λ _, ProvideInject.injectTheme key) parent w).1
  = default VUndefined (Vue.provides parent !! key).
Proof.
  unfold Vue.mount. rewrite run_bind.
  pose proof (setup_keeps_parent_provides own (Vue.child parent) w) as Hp.
  destruct (run (Vue.in_setup ext) own (Vue.child parent, w))
    as [[] [i w']].
  cbn in Hp |- *. unfold Vue.inject. by rewrite Hp.
Qed.

(** A setup that calls [provideTheme] and does not provide under the key
    afterwards leaves the theme under the key. *)
Lemma provideTheme_provides (key theme : string)
    (before after : Prog syncE unit) (above : Vue.instance) (w : W) :
  never_provides key after →
  Vue.provides
    (Vue.mount ext
       (before ≫= λ _, ProvideInject.provideTheme key theme ≫= λ _, after)
       above w).2.1 !! key
  = Some (VString theme).
Proof.
  intros Hafter. unfold Vue.mount. rewrite run_bind.
  destruct (run (Vue.in_setup ext) before (Vue.child above, w))
    as [[] [i w']].
  cbn. rewrite (setup_keeps_provided key after Hafter). cbn.
  apply lookup_insert_eq.
Qed.
End component_tree.

(** A theme provided in a setup is for the components below: the same
    setup is answered what its own parent provides. *)
Example own_theme_is_not_injected :
  (Vue.mount offline
     (ProvideInject.provideTheme "k" "dark"
      ≫= λ _, ProvideInject.injectTheme "k")
     (Vue.root ∅) tt).1
  = VUndefined.
Proof. vm_compute. reflexivity. Qed.

(** C2, as the code has it: when a component calls [provideTheme(t)] and
    does not provide under the key again, and no component between it and
    a descendant provides under the key either, [injectTheme()] called in
    the setup of that descendant returns [t]: the theme of the nearest
    ancestor that provided one.  The key is private to the module, so
    providing under it is calling [provideTheme]. *)
Theorem injectTheme_returns_the_nearest_theme {W : Type} (ext : Vue.world W)
    (key t : string) (before after own : Prog syncE unit)
    (between : list (Prog syncE unit)) (above : Vue.instance) (w : W) :
  never_provides key after →
  Forall (never_provides key) between →
  let ancestor :=
    Vue.mount ext
      (before ≫= λ _, ProvideInject.provideTheme key t ≫= λ _, after)
      above w in
  let parent := Vue.mount_chain ext between ancestor.2.1 ancestor.2.2 in
  (Vue.mount ext (own ≫= λ _, ProvideInject.injectTheme key)
     parent.1 parent.2).1
  = VString t.
Proof.
  intros Hafter Hbetween. cbv zeta.
  rewrite injectTheme_reads_parent,
    (mount_chain_keeps_provided ext key between Hbetween),
    (provideTheme_provides ext key t before after above w Hafter).
  reflexivity.
Qed.

Lemma injectTheme_returns_the_nearest_theme_witness :
  let ancestor :=
    Vue.mount offline
      (Ret tt ≫= λ _, ProvideInject.provideTheme "k" "light" ≫= λ _, Ret tt)
      (Vue.root ∅) tt in
  let parent :=
    Vue.mount_chain offline [trigger (Provide "other" VUndefined)]
      ancestor.2.1 ancestor.2.2 in
  (Vue.mount offline (Ret tt ≫= λ _, ProvideInject.injectTheme "k")
     parent.1 parent.2).1
  = VString "light".
Proof.
  apply (injectTheme_returns_the_nearest_theme offline "k" "light"
           (Ret tt) (Ret tt) (Ret tt)
           [trigger (Provide "other" VUndefined)] (Vue.root ∅) tt).
  - constructor.
  - constructor; [| constructor].
    constructor; [discriminate |]. intros []. constructor.
Defined.

(** C2, as the claim has it, fails when a component between the two
    provides a theme of its own: the root provides "light", its child
    provides "dark", and the grandchild is answered "dark". *)
Lemma nearer_theme_shadows_the_ancestor :
  let ancestor :=
    Vue.mount offline (ProvideInject.provideTheme "k" "light")
      (Vue.root ∅) tt in
  let parent :=
    Vue.mount_chain offline [ProvideInject.provideTheme "k" "dark"]
      ancestor.2.1 ancestor.2.2 in
  let answer :=
    (Vue.mount offline (ProvideInject.injectTheme "k")
       parent.1 parent.2).1 in
  answer = VString "dark" ∧ answer ≠ VString "light".
Proof. split; [vm_compute; reflexivity | vm_compute; discriminate]. Qed.

(** C10: when neither the application nor any component above provides
    under the key, that is, when no ancestor has called [provideTheme],
    [injectTheme()] returns [undefined], in the root component and in any
    component below it; a theme that a parent provides is a string, so
    [undefined] tells the two cases apart. *)
Theorem injectTheme_undefined_without_provider {W : Type}
    (ext : Vue.world W) (key : string) (app : gmap string value)
    (root_setup own : Prog syncE unit) (below : list (Prog syncE unit))
    (w : W) :
  app !! key = None →
  never_provides key root_setup →
  Forall (never_provides key) below →
  let root := run (Vue.in_setup ext) root_setup (Vue.root app, w) in
  let parent := Vue.mount_chain ext below root.2.1 root.2.2 in
  (run (Vue.in_setup ext) (own ≫= λ _, ProvideInject.injectTheme key)
     (Vue.root app, w)).1 = VUndefined
  ∧ (Vue.mount ext (own ≫= λ _, ProvideInject.injectTheme key)
       parent.1 parent.2).1 = VUndefined
  ∧ ∀ (t : string) (i : Vue.instance),
      Vue.provides i !! key = Some (VString t) →
      (Vue.mount ext (own ≫= λ _, ProvideInject.injectTheme key) i w).1
      ≠ VUndefined.
Proof.
  intros Happ Hroot Hbelow. cbv zeta. split; [| split].
  - rewrite run_bind.
    pose proof (setup_keeps_parent_provides ext own (Vue.root app) w) as Hp.
    destruct (run (Vue.in_setup ext) own (Vue.root app, w)) as [[] [i w']].
    cbn in Hp |- *. unfold Vue.inject. by rewrite Hp, Happ.
  - rewrite injectTheme_reads_parent,
      (mount_chain_keeps_provided ext key below Hbelow),
      (setup_keeps_provided ext key root_setup Hroot).
    cbn. by rewrite Happ.
  - intros t i Hi. rewrite injectTheme_reads_parent, Hi. discriminate.
Qed.

Lemma injectTheme_undefined_without_provider_witness :
  let root :=
    run (Vue.in_setup offline) (trigger (Provide "language" (VString "en-GB")))
      (Vue.root ∅, tt) in
  let parent := Vue.mount_chain offline [Ret tt] root.2.1 root.2.2 in
  (run (Vue.in_setup offline) (Ret tt ≫= λ _, ProvideInject.injectTheme "k")
     (Vue.root ∅, tt)).1 = VUndefined
  ∧ (Vue.mount offline (Ret tt ≫= λ _, ProvideInject.injectTheme "k")
       parent.1 parent.2).1 = VUndefined
  ∧ ∀ (t : string) (i : Vue.instance),
      Vue.provides i !! "k" = Some (VString t) →
      (Vue.mount offline (Ret tt ≫= λ _, ProvideInject.injectTheme "k")
         i tt).1
      ≠ VUndefined.
Proof.
  apply (injectTheme_undefined_without_provider offline "k" ∅
           (trigger (Provide "language" (VString "en-GB"))) (Ret tt)
           [Ret tt] tt).
  - reflexivity.
  - constructor; [discriminate |]. intros []. constructor.
  - constructor; constructor.
Defined.

(** ** The login state *)

Lemma login_logs_in : logs_in false UserLogin.login.
Proof. repeat constructor. Qed.

Lemma advance_logs_in (assigned : bool) (p : Prog asyncE unit) :
  logs_in assigned p →
  ∀ c out c' out' rest,
    (assigned = true → logged_in c) →
    cache_fresh c →
    EventLoop.advance p c out = (c', out', rest) →
    cache_fresh c'
    ∧ (logged_in c → logged_in c')
    ∧ match rest with
      | Some p' => ∃ assigned', logs_in assigned' p'
                                 ∧ (assigned' = true → logged_in c')
      | None => logged_in c'
      end.
Proof.
  induction 1 as [| assigned args k _ IH | assigned ms k _ IH
                  | assigned k Hk _ | assigned v k Hv _ IH];
    intros c out c' out' rest Hassigned Hfresh Hadv; cbn in Hadv.
  - inversion Hadv; subst. auto.
  - eapply IH; eauto.
  - eapply IH; eauto.
  - inversion Hadv; subst. eauto.
  - assert (logged_in (UserLogin.assign_loggedInUser v c)) as Hnow
      by exact Hv.
    destruct (IH _ _ _ _ _ (λ _, Hnow) ltac:(by intros b) Hadv)
      as (Hfresh' & Hmono & Hrest).
    auto.
Qed.

Lemma isLoggedIn_keeps_user (c : UserLogin.cells) :
  UserLogin.loggedInUser (UserLogin.isLoggedIn c).2 = UserLogin.loggedInUser c.
Proof. unfold UserLogin.isLoggedIn. by destruct (UserLogin.isLoggedIn_cache c). Qed.

Lemma isLoggedIn_keeps_fresh (c : UserLogin.cells) :
  cache_fresh c → cache_fresh (UserLogin.isLoggedIn c).2.
Proof.
  unfold UserLogin.isLoggedIn. intros Hfresh.
  destruct (UserLogin.isLoggedIn_cache c) eqn:Hcache; [done |].
  intros b [= <-]. reflexivity.
Qed.

(** Reading [isLoggedIn.value] with a fresh cache answers what the getter
    answers. *)
Lemma isLoggedIn_fresh (c : UserLogin.cells) :
  cache_fresh c →
  (UserLogin.isLoggedIn c).1 = neq_undefined (UserLogin.loggedInUser c).
Proof.
  unfold UserLogin.isLoggedIn. intros Hfresh.
  destruct (UserLogin.isLoggedIn_cache c) eqn:Hcache; [| done].
  by apply Hfresh.
Qed.

Lemma step_consistent (m m' : EventLoop.machine) (l : EventLoop.label) :
  consistent m →
  EventLoop.step m l m' →
  consistent m'
  ∧ (logged_in (EventLoop.state m) → logged_in (EventLoop.state m'))
  ∧ (l = EventLoop.Resolved → logged_in (EventLoop.state m')).
Proof.
  intros [Hfresh Hpending] Hstep.
  assert (∀ c : UserLogin.cells,
             (logged_in (EventLoop.state m) → logged_in c) →
             Forall (λ p, ∃ assigned, logs_in assigned p
                                      ∧ (assigned = true → logged_in c))
               (EventLoop.pending m)) as Hkeep.
  { intros c Hmono. eapply Forall_impl; [exact Hpending |].
    intros p (assigned & Hp & Ha). eauto. }
  destruct Hstep as [m c out rest Hadv | m i p c out p' Hi Hadv
                     | m i p c out Hi Hadv | m];
    cbn [EventLoop.state EventLoop.pending].
  - destruct (advance_logs_in _ _ login_logs_in _ _ _ _ _
                ltac:(discriminate) Hfresh Hadv) as (Hfresh' & Hmono & Hrest).
    repeat split; [done | | done | discriminate].
    apply Forall_app. split; [by apply Hkeep |].
    destruct rest as [p' |]; cbn; [| constructor].
    constructor; [exact Hrest | constructor].
  - destruct (Forall_lookup_1 _ _ _ _ Hpending Hi) as (assigned & Hp & Ha).
    destruct (advance_logs_in _ _ Hp _ _ _ _ _ Ha Hfresh Hadv)
      as (Hfresh' & Hmono & Hrest).
    repeat split; [done | | done | discriminate].
    apply Forall_insert; [by apply Hkeep | exact Hrest].
  - destruct (Forall_lookup_1 _ _ _ _ Hpending Hi) as (assigned & Hp & Ha).
    destruct (advance_logs_in _ _ Hp _ _ _ _ _ Ha Hfresh Hadv)
      as (Hfresh' & Hmono & Hrest).
    repeat split; [done | | done | done].
    apply Forall_delete. by apply Hkeep.
  - unfold logged_in. rewrite isLoggedIn_keeps_user.
    repeat split; [by apply isLoggedIn_keeps_fresh | | done | discriminate].
    apply Hkeep. cbn [EventLoop.state]. unfold logged_in.
    by rewrite isLoggedIn_keeps_user.
Qed.

Lemma boot_consistent : consistent EventLoop.boot.
Proof. split; [by intros b | constructor]. Qed.

Lemma reachable_consistent (m : EventLoop.machine) :
  EventLoop.reachable m → consistent m.
Proof.
  unfold EventLoop.reachable. revert m. apply rtc_ind_r.
  - exact boot_consistent.
  - intros m1 m2 _ [l Hstep] IH.
    by destruct (step_consistent _ _ _ IH Hstep).
Qed.

(** A call of [login] resolves after its two awaits, and leaves the user
    in the cell. *)
Lemma login_resolves (m : EventLoop.machine) :
  ∃ m1 m2 m3,
    EventLoop.step m EventLoop.Called m1
    ∧ EventLoop.step m1 EventLoop.Resumed m2
    ∧ EventLoop.step m2 EventLoop.Resolved m3
    ∧ UserLogin.loggedInUser (EventLoop.state m3)
      = VObject [("username", VString "Super USER!")]
    ∧ EventLoop.pending m3 = EventLoop.pending m.
Proof.
  do 3 eexists. split; [| split; [| split]].
  - eapply EventLoop.step_login. reflexivity.
  - eapply (EventLoop.step_resume _ (length (EventLoop.pending m))).
    + cbn. apply list_lookup_middle. reflexivity.
    + cbn. reflexivity.
  - eapply (EventLoop.step_resolve _ (length (EventLoop.pending m))).
    + cbn. rewrite list_lookup_insert_eq; [reflexivity |].
      rewrite length_app. cbn. lia.
    + cbn. reflexivity.
  - cbn. split; [reflexivity |].
    rewrite insert_app_r_alt, Nat.sub_diag by lia. cbn.
    rewrite delete_middle. apply app_nil_r.
Qed.

Lemma neq_undefined_true (v : value) :
  neq_undefined v = true ↔ v ≠ VUndefined.
Proof. destruct v; cbn; split; congruence. Qed.

Lemma steps_consistent (m m' : EventLoop.machine) :
  rtc EventLoop.next m m' →
  consistent m →
  consistent m'
  ∧ (logged_in (EventLoop.state m) → logged_in (EventLoop.state m')).
Proof.
  induction 1 as [m | m1 m2 m3 [l Hstep] _ IH]; intros Hm; [done |].
  destruct (step_consistent _ _ _ Hm Hstep) as (Hm2 & Hmono & _).
  destruct (IH Hm2) as [Hm3 Hmono']. auto.
Qed.

Lemma about_to_assign_reachable : EventLoop.reachable about_to_assign.
Proof.
  eapply rtc_l;
    [eexists; eapply EventLoop.step_login; reflexivity |].
  eapply rtc_l;
    [eexists; eapply (EventLoop.step_resume _ 0); reflexivity |].
  apply rtc_refl.
Defined.

Lemma about_to_assign_resolves :
  EventLoop.step about_to_assign EventLoop.Resolved logged_in_once.
Proof.
  exact (EventLoop.step_resolve about_to_assign 0 _ _ _ eq_refl eq_refl).
Defined.

(** C5: [isLoggedIn.value] is [loggedInUser.value !== undefined]: it is
    false when the module has just been loaded, and it is so in every state
    the event loop reaches through calls of [login], their resumptions and
    reads of the derived value, before and after each step. *)
Theorem isLoggedIn_tells_whether_a_user_is_there
    (m m' : EventLoop.machine) (l : EventLoop.label) :
  EventLoop.reachable m →
  EventLoop.step m l m' →
  (UserLogin.isLoggedIn UserLogin.init).1 = false
  ∧ (UserLogin.isLoggedIn (EventLoop.state m)).1
    = neq_undefined (UserLogin.loggedInUser (EventLoop.state m))
  ∧ (UserLogin.isLoggedIn (EventLoop.state m')).1
    = neq_undefined (UserLogin.loggedInUser (EventLoop.state m')).
Proof.
  intros Hm Hstep. apply reachable_consistent in Hm.
  destruct (step_consistent _ _ _ Hm Hstep) as ([Hfresh' _] & _).
  destruct Hm as [Hfresh _].
  split; [reflexivity |]. split; by apply isLoggedIn_fresh.
Qed.

Lemma isLoggedIn_tells_whether_a_user_is_there_witness :
  (UserLogin.isLoggedIn UserLogin.init).1 = false
  ∧ (UserLogin.isLoggedIn (EventLoop.state about_to_assign)).1
    = neq_undefined (UserLogin.loggedInUser (EventLoop.state about_to_assign))
  ∧ (UserLogin.isLoggedIn (EventLoop.state logged_in_once)).1
    = neq_undefined (UserLogin.loggedInUser (EventLoop.state logged_in_once)).
Proof.
  apply (isLoggedIn_tells_whether_a_user_is_there
           about_to_assign logged_in_once EventLoop.Resolved).
  - exact about_to_assign_reachable.
  - exact about_to_assign_resolves.
Defined.

(** C9: with the calls of [login], their resumptions and the reads of
    [isLoggedIn.value] as the steps, no step takes [isLoggedIn] from true to
    false and none puts [undefined] back into a cell that holds a user; the
    step by which a call of [login] resolves leaves [isLoggedIn] true, and
    it is true in every state reached from there. *)
Theorem isLoggedIn_never_goes_back
    (m m' m'' : EventLoop.machine) (l : EventLoop.label) :
  EventLoop.reachable m →
  EventLoop.step m l m' →
  rtc EventLoop.next m' m'' →
  ((UserLogin.isLoggedIn (EventLoop.state m)).1 = true →
   (UserLogin.isLoggedIn (EventLoop.state m')).1 = true)
  ∧ (UserLogin.loggedInUser (EventLoop.state m) ≠ VUndefined →
     UserLogin.loggedInUser (EventLoop.state m') ≠ VUndefined)
  ∧ (l = EventLoop.Resolved →
     (UserLogin.isLoggedIn (EventLoop.state m')).1 = true)
  ∧ ((UserLogin.isLoggedIn (EventLoop.state m')).1 = true →
     (UserLogin.isLoggedIn (EventLoop.state m'')).1 = true).
Proof.
  intros Hm Hstep Hsteps. apply reachable_consistent in Hm.
  destruct (step_consistent _ _ _ Hm Hstep) as (Hm' & Hmono & Hresolved).
  destruct (steps_consistent _ _ Hsteps Hm') as (Hm'' & Hmono').
  destruct Hm as [Hfresh _], Hm' as [Hfresh' _], Hm'' as [Hfresh'' _].
  rewrite !isLoggedIn_fresh by done.
  rewrite <- !neq_undefined_true. auto.
Qed.

Lemma isLoggedIn_never_goes_back_witness :
  ((UserLogin.isLoggedIn (EventLoop.state about_to_assign)).1 = true →
   (UserLogin.isLoggedIn (EventLoop.state logged_in_once)).1 = true)
  ∧ (UserLogin.loggedInUser (EventLoop.state about_to_assign) ≠ VUndefined →
     UserLogin.loggedInUser (EventLoop.state logged_in_once) ≠ VUndefined)
  ∧ (EventLoop.Resolved = EventLoop.Resolved →
     (UserLogin.isLoggedIn (EventLoop.state logged_in_once)).1 = true)
  ∧ ((UserLogin.isLoggedIn (EventLoop.state logged_in_once)).1 = true →
     (UserLogin.isLoggedIn (EventLoop.state logged_in_once)).1 = true).
Proof.
  apply (isLoggedIn_never_goes_back
           about_to_assign logged_in_once logged_in_once EventLoop.Resolved).
  - exact about_to_assign_reachable.
  - exact about_to_assign_resolves.
  - apply rtc_refl.
Defined.

(** * Further properties *)

(** ** The turns of a login *)

Lemma advance_login (c : UserLogin.cells) (out : list (list value)) :
  EventLoop.advance UserLogin.login c out
  = (c, (out ++ [[VString "fetchMyUser"]])%list, Some awaiting_delay).
Proof. reflexivity. Qed.

Lemma advance_awaiting_delay (c : UserLogin.cells) (out : list (list value)) :
  EventLoop.advance awaiting_delay c out = (c, out, Some awaiting_fetch).
Proof. reflexivity. Qed.

Lemma advance_awaiting_fetch (c : UserLogin.cells) (out : list (list value)) :
  EventLoop.advance awaiting_fetch c out
  = (UserLogin.assign_loggedInUser super_user c, out, None).
Proof. reflexivity. Qed.

(** What each kind of step does, when the pending tasks are logins. *)
Lemma step_shape (m m' : EventLoop.machine) (l : EventLoop.label) :
  login_tasks m →
  EventLoop.step m l m' →
  match l with
  | EventLoop.Called =>
      m' = {| EventLoop.state := EventLoop.state m;
              EventLoop.console :=
                (EventLoop.console m ++ [[VString "fetchMyUser"]])%list;
              EventLoop.pending :=
                (EventLoop.pending m ++ [awaiting_delay])%list |}
  | EventLoop.Resumed =>
      ∃ i, EventLoop.pending m !! i = Some awaiting_delay
           ∧ m' = {| EventLoop.state := EventLoop.state m;
                     EventLoop.console := EventLoop.console m;
                     EventLoop.pending :=
                       <[i := awaiting_fetch]> (EventLoop.pending m) |}
  | EventLoop.Resolved =>
      ∃ i, EventLoop.pending m !! i = Some awaiting_fetch
           ∧ m' = {| EventLoop.state :=
                       UserLogin.assign_loggedInUser super_user
                         (EventLoop.state m);
                     EventLoop.console := EventLoop.console m;
                     EventLoop.pending := delete i (EventLoop.pending m) |}
  | EventLoop.Read b =>
      b = (UserLogin.isLoggedIn (EventLoop.state m)).1
      ∧ m' = {| EventLoop.state := (UserLogin.isLoggedIn (EventLoop.state m)).2;
                EventLoop.console := EventLoop.console m;
                EventLoop.pending := EventLoop.pending m |}
  end.
Proof.
  intros Htasks Hstep.
  destruct Hstep as [m c out rest Hadv | m i p c out p' Hi Hadv
                     | m i p c out Hi Hadv | m].
  - rewrite advance_login in Hadv. by inversion Hadv.
  - destruct (Forall_lookup_1 _ _ _ _ Htasks Hi) as [-> | ->].
    + rewrite advance_awaiting_delay in Hadv. inversion Hadv. eauto.
    + rewrite advance_awaiting_fetch in Hadv. discriminate.
  - destruct (Forall_lookup_1 _ _ _ _ Htasks Hi) as [-> | ->].
    + rewrite advance_awaiting_delay in Hadv. discriminate.
    + rewrite advance_awaiting_fetch in Hadv. inversion Hadv. eauto.
  - done.
Qed.

Lemma step_login_tasks (m m' : EventLoop.machine) (l : EventLoop.label) :
  login_tasks m → EventLoop.step m l m' → login_tasks m'.
Proof.
  intros Htasks Hstep. pose proof (step_shape _ _ _ Htasks Hstep) as Hshape.
  unfold login_tasks in *.
  destruct l as [| | | b].
  - subst m'. cbn. apply Forall_app. split; [done |].
    constructor; [by left | constructor].
  - destruct Hshape as (i & _ & ->). cbn.
    apply Forall_insert; [done | by right].
  - destruct Hshape as (i & _ & ->). cbn. by apply Forall_delete.
  - destruct Hshape as (_ & ->). done.
Qed.

Lemma reachable_login_tasks (m : EventLoop.machine) :
  EventLoop.reachable m → login_tasks m.
Proof.
  unfold EventLoop.reachable. revert m. apply rtc_ind_r.
  - constructor.
  - intros m1 m2 _ [l Hstep] IH. by eapply step_login_tasks.
Qed.

Lemma history_reachable (ls : list EventLoop.label) (m : EventLoop.machine) :
  history ls m → EventLoop.reachable m.
Proof.
  induction 1 as [| ls m l m' _ IH Hstep]; [apply rtc_refl |].
  eapply rtc_r; [exact IH | by exists l].
Qed.

Lemma count_snoc (k l : EventLoop.label) (ls : list EventLoop.label) :
  count k (ls ++ [l]) = count k ls + (if decide (l = k) then 1 else 0).
Proof.
  unfold count. rewrite count_occ_app. cbn.
  destruct (label_eq_dec l k); by case_decide.
Qed.

(** What the steps so far tell about the state. *)
Lemma history_invariant (ls : list EventLoop.label) (m : EventLoop.machine) :
  history ls m →
  EventLoop.console m
  = replicate (count EventLoop.Called ls) [VString "fetchMyUser"]
  ∧ length (EventLoop.pending m) + count EventLoop.Resolved ls
    = count EventLoop.Called ls
  ∧ UserLogin.loggedInUser (EventLoop.state m)
    = (if bool_decide (EventLoop.Resolved ∈ ls) then super_user
       else VUndefined).
Proof.
  induction 1 as [| ls m l m' Hls (Hconsole & Hpending & Huser) Hstep];
    [done |].
  pose proof (step_shape _ _ _
                (reachable_login_tasks _ (history_reachable _ _ Hls)) Hstep)
    as Hshape.
  rewrite !count_snoc.
  assert (bool_decide (EventLoop.Resolved ∈ (ls ++ [l])%list)
          = orb (bool_decide (EventLoop.Resolved ∈ ls))
              (bool_decide (l = EventLoop.Resolved))) as ->.
  { rewrite <- bool_decide_or. apply bool_decide_ext.
    rewrite elem_of_app, list_elem_of_singleton.
    split; (intros [Hin | Heq]; [by left | by right]). }
  destruct l as [| | | b].
  - subst m'. cbn [EventLoop.state EventLoop.console EventLoop.pending].
    rewrite Hconsole, length_app, Huser, orb_false_r, Nat.add_1_r,
      replicate_S_end.
    repeat case_decide; try discriminate; cbn; repeat split; lia.
  - destruct Hshape as (i & _ & ->).
    cbn [EventLoop.state EventLoop.console EventLoop.pending].
    rewrite Hconsole, length_insert, Huser, orb_false_r.
    repeat case_decide; try discriminate; rewrite !Nat.add_0_r; done.
  - destruct Hshape as (i & Hi & ->).
    cbn [EventLoop.state EventLoop.console EventLoop.pending].
    rewrite Hconsole, length_delete, orb_true_r by eauto.
    apply lookup_lt_Some in Hi.
    repeat case_decide; try discriminate; try done;
      cbn; repeat split; try lia; f_equal; lia.
  - destruct Hshape as (_ & ->).
    cbn [EventLoop.state EventLoop.console EventLoop.pending].
    rewrite Hconsole, isLoggedIn_keeps_user, Huser, orb_false_r.
    repeat case_decide; try discriminate; rewrite !Nat.add_0_r; done.
Qed.

Lemma logged_in_once_history :
  history [EventLoop.Called; EventLoop.Resumed; EventLoop.Resolved]
    logged_in_once.
Proof.
  pose (called :=
          {| EventLoop.state := UserLogin.init;
             EventLoop.console := [[VString "fetchMyUser"]];
             EventLoop.pending := [awaiting_delay] |}).
  apply (history_step [EventLoop.Called; EventLoop.Resumed] about_to_assign
           EventLoop.Resolved logged_in_once);
    [| exact about_to_assign_resolves].
  apply (history_step [EventLoop.Called] called EventLoop.Resumed
           about_to_assign).
  - apply (history_step [] EventLoop.boot EventLoop.Called called);
      [exact history_boot |].
    exact (EventLoop.step_login EventLoop.boot _ _ _ eq_refl).
  - exact (EventLoop.step_resume called 0 awaiting_delay _ _ awaiting_fetch
             eq_refl eq_refl).
Defined.

(** X1: [loggedInUser.value] changes only in the step by which a call of
    [login] resolves, and what it holds then is [{ username: 'Super USER!' }];
    the call itself leaves the cells as they are, so a component that calls
    [login()] without awaiting it still sees the old state. *)
Theorem login_assigns_only_when_it_resolves
    (m m' : EventLoop.machine) (l : EventLoop.label) :
  EventLoop.reachable m →
  EventLoop.step m l m' →
  (l = EventLoop.Called → EventLoop.state m' = EventLoop.state m)
  ∧ (l ≠ EventLoop.Resolved →
     UserLogin.loggedInUser (EventLoop.state m')
     = UserLogin.loggedInUser (EventLoop.state m))
  ∧ (l = EventLoop.Resolved →
     UserLogin.loggedInUser (EventLoop.state m') = super_user).
Proof.
  intros Hm Hstep.
  pose proof (step_shape _ _ _ (reachable_login_tasks _ Hm) Hstep) as Hshape.
  destruct l as [| | | b].
  - subst m'. done.
  - destruct Hshape as (i & _ & ->). done.
  - destruct Hshape as (i & _ & ->). done.
  - destruct Hshape as (_ & ->). cbn [EventLoop.state].
    rewrite isLoggedIn_keeps_user. done.
Qed.

Lemma login_assigns_only_when_it_resolves_witness :
  (EventLoop.Resolved = EventLoop.Called →
   EventLoop.state logged_in_once = EventLoop.state about_to_assign)
  ∧ (EventLoop.Resolved ≠ EventLoop.Resolved →
     UserLogin.loggedInUser (EventLoop.state logged_in_once)
     = UserLogin.loggedInUser (EventLoop.state about_to_assign))
  ∧ (EventLoop.Resolved = EventLoop.Resolved →
     UserLogin.loggedInUser (EventLoop.state logged_in_once) = super_user).
Proof.
  apply (login_assigns_only_when_it_resolves
           about_to_assign logged_in_once EventLoop.Resolved).
  - exact about_to_assign_reachable.
  - exact about_to_assign_resolves.
Defined.

(** X2: a call of [login] writes the line 'fetchMyUser' to the console in
    the turn of the call and adds one pending task; the turns in which it
    is resumed, and the reads of [isLoggedIn.value], write nothing; the step
    that resolves it takes one task away. *)
Theorem login_logs_when_it_is_called
    (m m' : EventLoop.machine) (l : EventLoop.label) :
  EventLoop.reachable m →
  EventLoop.step m l m' →
  EventLoop.console m'
  = (if decide (l = EventLoop.Called)
     then (EventLoop.console m ++ [[VString "fetchMyUser"]])%list
     else EventLoop.console m)
  ∧ length (EventLoop.pending m') + (if decide (l = EventLoop.Resolved)
                                      then 1 else 0)
    = length (EventLoop.pending m) + (if decide (l = EventLoop.Called)
                                      then 1 else 0).
Proof.
  intros Hm Hstep.
  pose proof (step_shape _ _ _ (reachable_login_tasks _ Hm) Hstep) as Hshape.
  destruct l as [| | | b].
  - subst m'. cbn [EventLoop.console EventLoop.pending].
    rewrite length_app.
    repeat case_decide; try discriminate;
      first [done | cbn; split; [done | lia]].
  - destruct Hshape as (i & _ & ->). cbn [EventLoop.console EventLoop.pending].
    rewrite length_insert. repeat case_decide; try discriminate; done.
  - destruct Hshape as (i & Hi & ->).
    cbn [EventLoop.console EventLoop.pending].
    rewrite length_delete by eauto. apply lookup_lt_Some in Hi.
    repeat case_decide; try discriminate;
      first [done | split; [done | lia]].
  - destruct Hshape as (_ & ->). cbn [EventLoop.console EventLoop.pending].
    repeat case_decide; try discriminate; done.
Qed.

Lemma login_logs_when_it_is_called_witness :
  EventLoop.console logged_in_once
  = (if decide (EventLoop.Resolved = EventLoop.Called)
     then (EventLoop.console about_to_assign ++ [[VString "fetchMyUser"]])%list
     else EventLoop.console about_to_assign)
  ∧ length (EventLoop.pending logged_in_once)
    + (if decide (EventLoop.Resolved = EventLoop.Resolved) then 1 else 0)
    = length (EventLoop.pending about_to_assign)
      + (if decide (EventLoop.Resolved = EventLoop.Called) then 1 else 0).
Proof.
  apply (login_logs_when_it_is_called
           about_to_assign logged_in_once EventLoop.Resolved).
  - exact about_to_assign_reachable.
  - exact about_to_assign_resolves.
Defined.

(** X3: after any steps since the modules were loaded, [isLoggedIn.value]
    is true exactly when a call of [login] has resolved among them, and
    [loggedInUser.value] is then [{ username: 'Super USER!' }] and
    [undefined] otherwise: the cell never holds anything else. *)
Theorem isLoggedIn_iff_a_login_has_resolved
    (ls : list EventLoop.label) (m : EventLoop.machine) :
  history ls m →
  (UserLogin.isLoggedIn (EventLoop.state m)).1
  = bool_decide (EventLoop.Resolved ∈ ls)
  ∧ UserLogin.loggedInUser (EventLoop.state m)
    = (if bool_decide (EventLoop.Resolved ∈ ls) then super_user
       else VUndefined).
Proof.
  intros Hls. destruct (history_invariant _ _ Hls) as (_ & _ & Huser).
  split; [| exact Huser].
  destruct (reachable_consistent _ (history_reachable _ _ Hls)) as [Hfresh _].
  rewrite (isLoggedIn_fresh _ Hfresh), Huser.
  by destruct (bool_decide (EventLoop.Resolved ∈ ls)).
Qed.

Lemma isLoggedIn_iff_a_login_has_resolved_witness :
  (UserLogin.isLoggedIn (EventLoop.state logged_in_once)).1
  = bool_decide
      (EventLoop.Resolved
       ∈ [EventLoop.Called; EventLoop.Resumed; EventLoop.Resolved])
  ∧ UserLogin.loggedInUser (EventLoop.state logged_in_once)
    = (if bool_decide
            (EventLoop.Resolved
             ∈ [EventLoop.Called; EventLoop.Resumed; EventLoop.Resolved])
       then super_user else VUndefined).
Proof.
  apply (isLoggedIn_iff_a_login_has_resolved
           [EventLoop.Called; EventLoop.Resumed; EventLoop.Resolved]
           logged_in_once).
  exact logged_in_once_history.
Defined.

(** X4: after any steps since the modules were loaded, the console holds
    one line 'fetchMyUser' for each call of [login] made, and nothing else,
    and the logins still pending are those called and not yet resolved: no
    call resolves twice and none is lost. *)
Theorem every_login_is_pending_or_resolved
    (ls : list EventLoop.label) (m : EventLoop.machine) :
  history ls m →
  EventLoop.console m
  = replicate (count EventLoop.Called ls) [VString "fetchMyUser"]
  ∧ length (EventLoop.pending m) + count EventLoop.Resolved ls
    = count EventLoop.Called ls.
Proof.
  intros Hls. by destruct (history_invariant _ _ Hls) as (? & ? & _).
Qed.

Lemma every_login_is_pending_or_resolved_witness :
  EventLoop.console logged_in_once
  = replicate
      (count EventLoop.Called
         [EventLoop.Called; EventLoop.Resumed; EventLoop.Resolved])
      [VString "fetchMyUser"]
  ∧ length (EventLoop.pending logged_in_once)
    + count EventLoop.Resolved
        [EventLoop.Called; EventLoop.Resumed; EventLoop.Resolved]
    = count EventLoop.Called
        [EventLoop.Called; EventLoop.Resumed; EventLoop.Resolved].
Proof.
  apply (every_login_is_pending_or_resolved
           [EventLoop.Called; EventLoop.Resumed; EventLoop.Resolved]
           logged_in_once).
  exact logged_in_once_history.
Defined.




(** ** More on provide and inject *)

Lemma never_provides_bind {A B} (key : string) (p : Prog syncE A)
    (f : A → Prog syncE B) :
  never_provides key p →
  (∀ a, never_provides key (f a)) →
  never_provides key (p ≫= f).
Proof.
  intros Hp Hf. induction Hp as [a | X e k Hkey _ IH]; [apply Hf |].
  by apply (never_provides_vis key X e).
Qed.

Lemma reader_call_never_provides `{ToStringOp} (key themeKey : string)
    (r : reader) :
  never_provides key (reader_call themeKey r).
Proof.
  destruct r; (apply (never_provides_vis key); [discriminate |]);
    intros x; constructor.
Qed.

Lemma reader_setup_never_provides `{ToStringOp} (key themeKey : string)
    (rs : list reader) :
  never_provides key (reader_setup themeKey rs).
Proof.
  induction rs as [| r rs IH]; [constructor |].
  apply never_provides_bind; [apply reader_call_never_provides | done].
Qed.

Lemma provideTheme_never_provides_other (key other theme : string) :
  key ≠ other → never_provides other (ProvideInject.provideTheme key theme).
Proof.
  intros Hne. apply (never_provides_vis other); [cbn; congruence |].
  intros []. constructor.
Qed.

(** X6: providing themes leaves the values provided under other keys as
    they are: below any chain of components that each call [provideTheme],
    [inject] of another key answers what was provided under it above the
    chain. *)
Theorem provideTheme_leaves_other_keys {W : Type} (ext : Vue.world W)
    (key other : string) (themes : list string) (own : Prog syncE unit)
    (top : Vue.instance) (w : W) :
  key ≠ other →
  let parent :=
    Vue.mount_chain ext (ProvideInject.provideTheme key <$> themes) top w in
  (Vue.mount ext (own ≫= λ _, trigger (Inject other)) parent.1 parent.2).1
  = default VUndefined (Vue.provides top !! other).
Proof.
  intros Hne. cbv zeta.
  rewrite (injectTheme_reads_parent ext other),
    (mount_chain_keeps_provided ext other); [done |].
  apply Forall_fmap, Forall_forall. intros t _.
  by apply provideTheme_never_provides_other.
Qed.

Lemma provideTheme_leaves_other_keys_witness :
  let parent :=
    Vue.mount_chain offline
      (ProvideInject.provideTheme "k" <$> ["light"; "dark"])
      (Vue.root {["language" := VString "en-GB"]}) tt in
  (Vue.mount offline (Ret tt ≫= λ _, trigger (Inject "language"))
     parent.1 parent.2).1
  = default VUndefined
      (Vue.provides (Vue.root {["language" := VString "en-GB"]})
       !! "language").
Proof.
  apply (provideTheme_leaves_other_keys offline "k" "language"
           ["light"; "dark"] (Ret tt)
           (Vue.root {["language" := VString "en-GB"]}) tt).
  discriminate.
Defined.

(** X7: what [injectTheme()] answers depends on the parent only: not on
    what the setup of the component did before, be it a [provideTheme] of
    its own, and not on what nanoid and SWR answered meanwhile. *)
Theorem injectTheme_depends_on_the_parent_only {W : Type} (ext : Vue.world W)
    (key t : string) (own own' before : Prog syncE unit)
    (parent : Vue.instance) (w w' : W) :
  (Vue.mount ext (own ≫= λ _, ProvideInject.injectTheme key) parent w).1
  = (Vue.mount ext (own' ≫= λ _, ProvideInject.injectTheme key) parent w').1
  ∧ (Vue.mount ext
       ((before ≫= λ _, ProvideInject.provideTheme key t)
        ≫= λ _, ProvideInject.injectTheme key) parent w).1
    = default VUndefined (Vue.provides parent !! key).
Proof. by rewrite !injectTheme_reads_parent. Qed.

(** X8: components that only read, through [injectTheme] and the two
    hooks, pass the theme on: with any number of them between the
    component that called [provideTheme(t)] and a descendant, and any reads
    after the call in that component itself, [injectTheme()] in the
    descendant returns [t]. *)
Theorem theme_passes_through_readers `{ToStringOp} {W : Type}
    (ext : Vue.world W) (key t : string) (before own : Prog syncE unit)
    (after : list reader) (between : list (list reader))
    (above : Vue.instance) (w : W) :
  let ancestor :=
    Vue.mount ext
      (before ≫= λ _, ProvideInject.provideTheme key t
              ≫= λ _, reader_setup key after)
      above w in
  let parent :=
    Vue.mount_chain ext (reader_setup key <$> between)
      ancestor.2.1 ancestor.2.2 in
  (Vue.mount ext (own ≫= λ _, ProvideInject.injectTheme key)
     parent.1 parent.2).1
  = VString t.
Proof.
  cbv zeta.
  rewrite injectTheme_reads_parent, (mount_chain_keeps_provided ext key).
  - rewrite (provideTheme_provides ext key t before); [done |].
    apply reader_setup_never_provides.
  - apply Forall_fmap, Forall_forall. intros rs _.
    apply reader_setup_never_provides.
Qed.

(** ** More on the fetch functions and the hooks *)

Section each_in_turn.
Context {E : Type → Type} {S : Type} (h : handler E S).

Lemma calls_each {A} (p : Prog E A) (ps : list (Prog E A)) (s : S) :
  calls h (each (p :: ps)) s
  = (calls h p s ++ calls h (each ps) (run h p s).2)%list.
Proof.
  cbn [each]. rewrite calls_bind, calls_bind. cbn [calls mret Prog_ret].
  by rewrite app_nil_r.
Qed.

Lemma run_each {A} (p : Prog E A) (ps : list (Prog E A)) (s : S) :
  (run h (each (p :: ps)) s).1
  = (run h p s).1 :: (run h (each ps) (run h p s).2).1.
Proof. cbn [each]. by rewrite run_bind, run_bind. Qed.
End each_in_turn.

(** X9: the fetch functions remember nothing: fetching the products of a
    list of numbers one after the other logs each id, waits a delay of
    1000 ms for each, also for an id fetched before, and resolves to the
    product of each id in turn; [n] calls of [fetchMyUser] log and wait [n]
    times. *)
Theorem fetches_are_repeated_not_remembered `{ToStringOp}
    {S : Type} (h : handler asyncE S) (s : S) (ids : list number) (n : nat) :
  let products :=
    each ((λ id, FetchProduct.fetchProduct (VNumber id)) <$> ids) in
  let users := each (replicate n FetchMyUser.fetchMyUser) in
  logged (calls h products s)
  = (λ id, [VString "fetchProduct"; VNumber id]) <$> ids
  ∧ delays (calls h products s) = replicate (length ids) 1000%Z
  ∧ (run h products s).1
    = (λ id, VObject
               [("productId", VNumber id);
                ("productName",
                 VString ("Super Product #" +:+ ToString (VNumber id)))])
      <$> ids
  ∧ logged (calls h users s) = replicate n [VString "fetchMyUser"]
  ∧ delays (calls h users s) = replicate n 1000%Z.
Proof.
  cbv zeta. split; [| split; [| split; [| split]]].
  - revert s. induction ids as [| id ids IH]; intros s; [done |].
    cbn [fmap list_fmap]. unfold logged in *.
    rewrite calls_each, omap_app, IH, fetchProduct_calls. done.
  - revert s. induction ids as [| id ids IH]; intros s; [done |].
    cbn [fmap list_fmap]. unfold delays in *.
    rewrite calls_each, omap_app, IH, fetchProduct_calls. done.
  - revert s. induction ids as [| id ids IH]; intros s; [done |].
    cbn [fmap list_fmap]. by rewrite run_each, IH, fetchProduct_result.
  - revert s. induction n as [| n IH]; intros s; [done |].
    cbn [replicate]. unfold logged in *.
    rewrite calls_each, omap_app, IH, fetchMyUser_calls. done.
  - revert s. induction n as [| n IH]; intros s; [done |].
    cbn [replicate]. unfold delays in *.
    rewrite calls_each, omap_app, IH, fetchMyUser_calls. done.
Qed.

(** X10: the fetcher that [useProduct] hands to [useSWR] fetches the
    product named by its second argument, a number or [undefined], whatever
    the first argument and whatever follows the second; called with fewer
    than two arguments it fetches the product of [undefined] rather than
    failing. *)
Theorem useProduct_fetcher_by_arguments `{ToStringOp}
    {S S' : Type} (h : handler syncE S) (h' : handler asyncE S')
    (s : S) (s' : S') (uniqueKey : string) (productIdRef : Ref) :
  let product id :=
    VObject [("productId", id);
             ("productName", VString ("Super Product #" +:+ ToString id))] in
  length (swr_fetchers
            (calls h (UseProduct.useProduct uniqueKey productIdRef) s)) = 1
  ∧ Forall
      (λ fetch : fetcher,
         (∀ x (productId : number) more,
             logged (calls h' (fetch (x :: VNumber productId :: more)) s')
             = [[VString "fetchProduct"; VNumber productId]]
             ∧ (run h' (fetch (x :: VNumber productId :: more)) s').1
               = product (VNumber productId))
         ∧ (∀ x more,
               logged (calls h' (fetch (x :: VUndefined :: more)) s')
               = [[VString "fetchProduct"; VUndefined]]
               ∧ (run h' (fetch (x :: VUndefined :: more)) s').1
                 = product VUndefined)
         ∧ (∀ x, (run h' (fetch [x]) s').1 = product VUndefined)
         ∧ (run h' (fetch []) s').1 = product VUndefined)
      (swr_fetchers
         (calls h (UseProduct.useProduct uniqueKey productIdRef) s)).
Proof.
  cbv zeta. rewrite useProduct_calls. cbn [swr_fetchers omap projT2].
  split; [done |]. constructor; [| constructor].
  split; [| split; [| split]].
  - intros x productId more. unfold logged.
    rewrite fetchProduct_calls, fetchProduct_result. done.
  - intros x more. unfold logged.
    rewrite fetchProduct_calls, fetchProduct_result. done.
  - intros x. by rewrite fetchProduct_result.
  - by rewrite fetchProduct_result.
Qed.


